(** * UrlPathTransformer: client path <-> target URL translation

    A shallow embedding of [src/transformers/urlPathTransformer.ts] and the
    properties of its two-map cache, its resolution order and its
    per-request operations.

    The class keeps four private fields and talks to a global logger.  Its
    methods are embedded as computations in a state monad over a [Session]
    (the instance fields plus the lines the logger has received), so that
    "this method leaves the cache alone" is a statement about the state the
    method hands back and not a by-product of its type.

    The class calls into modules that are not part of this file
    ([utils], [ChromeUtils], [ChromeDebugAdapter], node's [path]); they are
    gathered in the [Imports] class and every theorem holds for any
    implementation of them.  [Module Reference] gives one implementation,
    used to run the methods on concrete inputs. *)

From stdpp Require Import base option strings list gmap fin_maps.

Open Scope string_scope.

(** ** JavaScript values

    A TypeScript [string] slot may hold [undefined]; such a slot is an
    [option string].  [truthy] is the test of [if (v)] / [!v] / [v || w]:
    [undefined] and the empty string are falsy. *)

Definition truthy (v : option string) : bool :=
  match v with
  | Some s => negb (String.eqb s "")
  | None => false
  end.

(** [`${v}`] inside a template string, and the string a truthy slot holds. *)
Definition str (v : option string) : string := default "undefined" v.

(** [a || b] *)
Definition js_or (a b : option string) : option string :=
  if truthy a then a else b.

(** [s.startsWith(p)] *)
Definition startsWith (s p : string) : bool := String.prefix p s.

(** ** Protocol objects (the fields the transformer reads or writes) *)

(** [{[url: string]: string}]: an object used as an ordered table. *)
Definition PathMapping : Type := list (string * string).

Module Source.
Record t : Type := mk {
  name : option string;
  path : option string;
  sourceReference : option Z;
  origin : option string
}.

Definition with_path (s : t) (p : option string) : t :=
  {| name := name s; path := p;
     sourceReference := sourceReference s; origin := origin s |}.
End Source.

Module StackFrame.
Record t : Type := mk {
  id : Z;
  name : string;
  source : option Source.t;
  line : Z;
  column : Z
}.

Definition with_source (f : t) (s : Source.t) : t :=
  {| id := id f; name := name f; source := Some s;
     line := line f; column := column f |}.
End StackFrame.

Record IStackTraceResponseBody : Type := {
  stackFrames : list StackFrame.t;
  totalFrames : option Z
}.

Record ISetBreakpointsArgs : Type := {
  source : Source.t;
  lines : list Z;
  authoredPath : option string
}.

Definition set_source_path (args : ISetBreakpointsArgs) (p : string)
  : ISetBreakpointsArgs :=
  {| source := Source.with_path (source args) (Some p);
     lines := lines args; authoredPath := authoredPath args |}.

(** [ILaunchRequestArgs] and [IAttachRequestArgs] share the two fields the
    transformer captures. *)
Record ICommonRequestArgs : Type := {
  webRoot : option string;
  pathMapping : option PathMapping
}.
Definition ILaunchRequestArgs : Type := ICommonRequestArgs.
Definition IAttachRequestArgs : Type := ICommonRequestArgs.

(** ** The functions the class imports *)

Class Imports : Type := {
  (** [utils.isURL] *)
  isURL : string → bool;
  (** [utils.canonicalizeUrl] *)
  canonicalizeUrl : string → string;
  (** [path.isAbsolute] *)
  isAbsolute : string → bool;
  (** [ChromeUtils.targetUrlToClientPathByPathMappings(scriptUrl, pathMapping)] *)
  targetUrlToClientPathByPathMappings : string → PathMapping → option string;
  (** [ChromeUtils.targetUrlToClientPath(webRoot, aUrl)] *)
  targetUrlToClientPath : option string → string → option string;
  (** [ChromeDebugAdapter.EVAL_NAME_PREFIX] *)
  EVAL_NAME_PREFIX : string
}.

(** ** Instance state and the monad of its methods *)

Record UrlPathTransformer : Type := {
  _webRoot : option string;
  _pathMapping : PathMapping;
  _clientPathToTargetUrl : gmap string string;
  _targetUrlToClientPath : gmap string string
}.

(** Field initialisers of the class: [_webRoot] is declared without a value. *)
Definition new_UrlPathTransformer : UrlPathTransformer :=
  {| _webRoot := None; _pathMapping := [];
     _clientPathToTargetUrl := ∅; _targetUrlToClientPath := ∅ |}.

Record Session : Type := {
  this : UrlPathTransformer;
  (** lines passed to [logger.log], oldest first *)
  logged : list string
}.

Definition new_Session : Session :=
  {| this := new_UrlPathTransformer; logged := [] |}.

Definition M (A : Type) : Type := Session → A * Session.

#[global] Instance M_ret : MRet M := λ A a s, (a, s).
#[global] Instance M_bind : MBind M :=
  λ A B f m s, let '(a, s') := m s in f a s'.

Definition get_this : M UrlPathTransformer := λ s, (this s, s).

Definition put_this (t : UrlPathTransformer) : M unit :=
  λ s, (tt, {| this := t; logged := logged s |}).

Definition logger_log (msg : string) : M unit :=
  λ s, (tt, {| this := this s; logged := logged s ++ [msg] |}).

Definition result {A} (m : M A) (s : Session) : A := fst (m s).
Definition after {A} (m : M A) (s : Session) : Session := snd (m s).

(** [array.forEach(f)] where [f] mutates the element it is given. *)
Fixpoint forEach {A} (f : A → M A) (l : list A) : M (list A) :=
  match l with
  | [] => mret []
  | x :: l' => x' ← f x; l'' ← forEach f l'; mret (x' :: l'')
  end.

(** ** The methods *)

Section Methods.
Context `{Imports}.

Definition capture (args : ICommonRequestArgs) : M unit :=
  t ← get_this;
  put_this {| _webRoot := webRoot args;
              _pathMapping := default [] (pathMapping args);
              _clientPathToTargetUrl := _clientPathToTargetUrl t;
              _targetUrlToClientPath := _targetUrlToClientPath t |}.

(** [super.launch] / [super.attach] belong to the base class, which has no
    access to the private fields; the promise they return is not modelled. *)
Definition launch (args : ILaunchRequestArgs) : M unit := capture args.
Definition attach (args : IAttachRequestArgs) : M unit := capture args.

Definition getTargetPathFromClientPath (clientPath : string)
  : M (option string) :=
  t ← get_this;
  mret (if isAbsolute clientPath
        then _clientPathToTargetUrl t !! canonicalizeUrl clientPath
        else Some clientPath).

Definition getClientPathFromTargetPath (targetPath : string)
  : M (option string) :=
  t ← get_this;
  mret (_targetUrlToClientPath t !! targetPath).

(** [args] is mutated in place; the mutated object is the result. *)
Definition setBreakpoints (args : ISetBreakpointsArgs)
  : M ISetBreakpointsArgs :=
  if negb (truthy (Source.path (source args))) then
    mret args
  else
    let p := str (Source.path (source args)) in
    if isURL p then
      logger_log ("Paths.setBP: " +:+ p +:+ " is already a URL");;
      mret args
    else
      let path := canonicalizeUrl p in
      url ← getTargetPathFromClientPath path;
      if truthy url then
        let args := set_source_path args (str url) in
        logger_log ("Paths.setBP: Resolved " +:+ path +:+ " to "
                    +:+ str (Source.path (source args)));;
        mret args
      else
        logger_log ("Paths.setBP: No target url cached yet for client path: "
                    +:+ path +:+ ".");;
        mret (set_source_path args path).

Definition clearTargetContext : M unit :=
  t ← get_this;
  put_this {| _webRoot := _webRoot t;
              _pathMapping := _pathMapping t;
              _clientPathToTargetUrl := ∅;
              _targetUrlToClientPath := ∅ |}.

(** The two [Map.set] calls of [scriptParsed]. *)
Definition cache_set (clientPath scriptUrl : string) : M unit :=
  t ← get_this;
  put_this {| _webRoot := _webRoot t;
              _pathMapping := _pathMapping t;
              _clientPathToTargetUrl :=
                <[clientPath := scriptUrl]> (_clientPathToTargetUrl t);
              _targetUrlToClientPath :=
                <[scriptUrl := clientPath]> (_targetUrlToClientPath t) |}.

(** The client path [scriptParsed] settles on: the path-mapping resolver,
    and the webRoot resolver when the former gives a falsy value. *)
Definition resolve (t : UrlPathTransformer) (scriptUrl : string)
  : option string :=
  let clientPath :=
    targetUrlToClientPathByPathMappings scriptUrl (_pathMapping t) in
  if negb (truthy clientPath)
  then targetUrlToClientPath (_webRoot t) scriptUrl
  else clientPath.

Definition unresolved_msg (scriptUrl : string) (wr : option string) : string :=
  "Paths.scriptParsed: could not resolve " +:+ scriptUrl
  +:+ " to a file under webRoot: " +:+ str wr
  +:+ ". It may be external or served directly from the server's memory"
  +:+ " (and that's OK).".

Definition resolved_msg (scriptUrl clientPath : string) (wr : option string)
  : string :=
  "Paths.scriptParsed: resolved " +:+ scriptUrl +:+ " to " +:+ clientPath
  +:+ ". webRoot: " +:+ str wr.

Definition scriptParsed (scriptUrl : string) : M string :=
  t ← get_this;
  let clientPath := resolve t scriptUrl in
  if negb (truthy clientPath) then
    (if negb (startsWith scriptUrl EVAL_NAME_PREFIX)
     then logger_log (unresolved_msg scriptUrl (_webRoot t))
     else mret tt);;
    mret scriptUrl
  else
    logger_log (resolved_msg scriptUrl (str clientPath) (_webRoot t));;
    cache_set (str clientPath) scriptUrl;;
    mret (str clientPath).

(** The callback of [stackTraceResponse]. *)
Definition resolveFrame (frame : StackFrame.t) : M StackFrame.t :=
  match StackFrame.source frame with
  | Some src =>
    if truthy (Source.path src) then
      let p := str (Source.path src) in
      cached ← getClientPathFromTargetPath p;
      t ← get_this;
      let clientPath :=
        js_or cached (targetUrlToClientPath (_webRoot t) p) in
      if truthy clientPath then
        mret (StackFrame.with_source frame
                {| Source.name := Source.name src;
                   Source.path := Some (str clientPath);
                   Source.sourceReference := None;
                   Source.origin := None |})
      else mret frame
    else mret frame
  | None => mret frame
  end.

(** [response] is mutated in place; the mutated object is the result. *)
Definition stackTraceResponse (response : IStackTraceResponseBody)
  : M IStackTraceResponseBody :=
  frames ← forEach resolveFrame (stackFrames response);
  mret {| stackFrames := frames; totalFrames := totalFrames response |}.

End Methods.

(** ** Sequences of calls

    The request-dispatch loop invokes the public methods one at a time. *)

Inductive Call : Type :=
| Launch (args : ILaunchRequestArgs)
| Attach (args : IAttachRequestArgs)
| SetBreakpoints (args : ISetBreakpointsArgs)
| ClearTargetContext
| ScriptParsed (scriptUrl : string)
| StackTraceResponse (response : IStackTraceResponseBody)
| GetTargetPathFromClientPath (clientPath : string)
| GetClientPathFromTargetPath (targetPath : string).

Section Calls.
Context `{Imports}.

Definition call (c : Call) : M unit :=
  match c with
  | Launch args => launch args
  | Attach args => attach args
  | SetBreakpoints args => setBreakpoints args;; mret tt
  | ClearTargetContext => clearTargetContext
  | ScriptParsed u => scriptParsed u;; mret tt
  | StackTraceResponse r => stackTraceResponse r;; mret tt
  | GetTargetPathFromClientPath c => getTargetPathFromClientPath c;; mret tt
  | GetClientPathFromTargetPath u => getClientPathFromTargetPath u;; mret tt
  end.

Fixpoint calls (l : list Call) : M unit :=
  match l with
  | [] => mret tt
  | c :: l' => call c;; calls l'
  end.

(** Direct views of the two maps. *)
Definition by_target (s : Session) (u : string) : option string :=
  _targetUrlToClientPath (this s) !! u.
Definition by_client (s : Session) (c : string) : option string :=
  _clientPathToTargetUrl (this s) !! c.

(** A client path in the sense of the data model: absolute and already in
    canonical form. *)
Definition ClientPath (c : string) : Prop :=
  isAbsolute c = true ∧ canonicalizeUrl c = c.

(** [scriptParsed u] finds the client path [c] for [u]. *)
Definition resolves (s : Session) (u c : string) : Prop :=
  resolve (this s) u = Some c ∧ c ≠ "".

(** The client path the callback of [stackTraceResponse] finds for [p]. *)
Definition frameClientPath (s : Session) (p : string) : option string :=
  js_or (by_target s p) (targetUrlToClientPath (_webRoot (this s)) p).

(** What the callback of [stackTraceResponse] leaves in place of [frame]. *)
Definition resolvedFrame (s : Session) (frame : StackFrame.t) : StackFrame.t :=
  match StackFrame.source frame with
  | Some src =>
    if truthy (Source.path src) then
      let clientPath := frameClientPath s (str (Source.path src)) in
      if truthy clientPath then
        StackFrame.with_source frame
          {| Source.name := Source.name src;
             Source.path := Some (str clientPath);
             Source.sourceReference := None;
             Source.origin := None |}
      else frame
    else frame
  | None => frame
  end.

(** The two maps, client-to-target first. *)
Definition cache (s : Session) : gmap string string * gmap string string :=
  (_clientPathToTargetUrl (this s), _targetUrlToClientPath (this s)).

(** Every value of one map is a key of the other. *)
Definition coupled (s : Session) : Prop :=
  (∀ u c, by_target s u = Some c → is_Some (by_client s c)) ∧
  (∀ c u, by_client s c = Some u → is_Some (by_target s u)).

(** The pairs (client path, URL) that the calls of [l], started in [s],
    put into the cache and that no later [clearTargetContext] wiped,
    newest first; [h] holds the pairs present at the start. *)
Fixpoint insertions (l : list Call) (s : Session) (h : list (string * string))
  : list (string * string) :=
  match l with
  | [] => h
  | c :: l' =>
    insertions l' (after (call c) s)
      match c with
      | ScriptParsed u =>
        if truthy (resolve (this s) u)
        then (str (resolve (this s) u), u) :: h else h
      | ClearTargetContext => []
      | _ => h
      end
  end.

(** No call of the sequence is a [scriptParsed] that finds a client path. *)
Fixpoint no_resolution (l : list Call) (s : Session) : Prop :=
  match l with
  | [] => True
  | c :: l' =>
    match c with
    | ScriptParsed u => truthy (resolve (this s) u) = false
    | _ => True
    end ∧ no_resolution l' (after (call c) s)
  end.

(** No call of the sequence is [clearTargetContext]. *)
Definition no_clear (l : list Call) : Prop :=
  Forall (λ c, c ≠ ClearTargetContext) l.

(** The configuration captured by [launch] / [attach]. *)
Definition config (s : Session) : option string * PathMapping :=
  (_webRoot (this s), _pathMapping (this s)).

(** No call of the sequence is [launch] or [attach]. *)
Definition no_reconfiguration (l : list Call) : Prop :=
  Forall (λ c, match c with Launch _ | Attach _ => False | _ => True end) l.

(** The methods that contain a [logger.log] statement. *)
Definition may_log (c : Call) : bool :=
  match c with
  | SetBreakpoints _ | ScriptParsed _ => true
  | _ => false
  end.

(** The cache agrees with the resolvers as configured now: every URL is
    cached with the client path [scriptParsed] would find for it, and every
    client path is cached with a URL that is cached with that very path. *)
Definition cache_agrees (s : Session) : Prop :=
  (∀ u c, by_target s u = Some c → resolves s u c) ∧
  (∀ c u, by_client s c = Some u → by_target s u = Some c).
End Calls.

(** The same imports with another webRoot resolver. *)
Definition with_targetUrlToClientPath (I : Imports)
    (f : option string → string → option string) : Imports :=
  {| isURL := @isURL I; canonicalizeUrl := @canonicalizeUrl I;
     isAbsolute := @isAbsolute I;
     targetUrlToClientPathByPathMappings := @targetUrlToClientPathByPathMappings I;
     targetUrlToClientPath := f;
     EVAL_NAME_PREFIX := @EVAL_NAME_PREFIX I |}.

(** ** A reference implementation of the imports

    String-only resolvers on a POSIX host, used to run the methods. *)

Module Reference.

Definition drop_string (n : nat) (s : string) : string :=
  String.substring n (String.length s - n) s.

Definition ends_with_slash (s : string) : bool :=
  match String.length s with
  | 0 => false
  | S n => String.eqb (String.substring n 1 s) "/"
  end.

(** [path.join] of a directory and one segment. *)
Definition join (dir seg : string) : string :=
  let dir := if ends_with_slash dir
             then String.substring 0 (String.length dir - 1) dir else dir in
  let seg := if String.prefix "/" seg then drop_string 1 seg else seg in
  dir +:+ "/" +:+ seg.

(** What follows [scheme://], when the string has a non-empty scheme. *)
Definition after_scheme (u : string) : option string :=
  match String.index 0 "://" u with
  | Some (S n) => Some (drop_string (S n + 3) u)
  | _ => None
  end.

(** The path of a URL: from the first [/] after the origin up to the
    query. *)
Definition pathname (u : string) : option string :=
  rest ← after_scheme u;
  i ← String.index 0 "/" rest;
  let p := drop_string i rest in
  Some (match String.index 0 "?" p with
        | Some j => String.substring 0 j p
        | None => p
        end).

(** node's [path.posix.isAbsolute]: the string starts with a slash. *)
Definition isAbsolute (p : string) : bool := String.prefix "/" p.

(** Modelled from the spec: [utils.isURL] is missing; section 4.1 classifies a
    string as a URL "by scheme prefix", anything else being a filesystem
    path. *)
Definition isURL (s : string) : bool :=
  negb (isAbsolute s) && bool_decide (is_Some (after_scheme s)).

Definition normalize_separator (a : Ascii.ascii) : Ascii.ascii :=
  if Ascii.eqb a (Ascii.ascii_of_nat 92) then Ascii.ascii_of_nat 47 else a.

Fixpoint map_string (f : Ascii.ascii → Ascii.ascii) (s : string) : string :=
  match s with
  | EmptyString => EmptyString
  | String a s' => String (f a) (map_string f s')
  end.

(** Modelled from the spec: [utils.canonicalizeUrl] is missing; section 4.1
    asks for a pure, idempotent, separator-normalized form.  On a
    case-sensitive file system that is the path with every backslash
    turned into a slash. *)
Definition canonicalizeUrl (p : string) : string :=
  map_string normalize_separator p.

(** Modelled from the spec: [ChromeUtils.targetUrlToClientPathByPathMappings]
    is missing; section 4.2: the entries are tried in order, the first one
    whose prefix starts the URL's path wins, the prefix is replaced by the
    entry's directory and the remainder appended; no match, no result. *)
Fixpoint targetUrlToClientPathByPathMappings
    (scriptUrl : string) (mapping : PathMapping) : option string :=
  match mapping with
  | [] => None
  | (pattern, localPath) :: mapping' =>
    match pathname scriptUrl with
    | Some p =>
      if negb (String.eqb pattern "") && String.prefix pattern p
      then Some (canonicalizeUrl
                   (join localPath (drop_string (String.length pattern) p)))
      else targetUrlToClientPathByPathMappings scriptUrl mapping'
    | None => None
    end
  end.

(** Modelled from the spec: [ChromeUtils.targetUrlToClientPath] is missing;
    section 4.3: strip origin and query, join the remaining segment to
    [webRoot], normalize; none when [webRoot] is unset or the URL has no
    such segment. *)
Definition targetUrlToClientPath
    (webRoot : option string) (aUrl : string) : option string :=
  if negb (truthy webRoot) then None
  else match pathname aUrl with
       | Some p =>
         if String.eqb p "/" then None
         else Some (canonicalizeUrl (join (str webRoot) p))
       | None => None
       end.

(** Modelled from the spec: [ChromeDebugAdapter.EVAL_NAME_PREFIX] is missing;
    the scenario of section 8 and the comment in [scriptParsed] give
    [eval://]. *)
Definition EVAL_NAME_PREFIX : string := "eval://".

Definition imports : Imports :=
  Build_Imports isURL canonicalizeUrl isAbsolute
    targetUrlToClientPathByPathMappings targetUrlToClientPath
    EVAL_NAME_PREFIX.

Definition launched (wr : option string) (pm : PathMapping) : Session :=
  after (launch {| webRoot := wr; pathMapping := Some pm |}) new_Session.

End Reference.

(** * Properties *)

(** Closed examples run on the reference imports; inside a section the
    section's own [Imports] takes precedence. *)
#[local] Existing Instance Reference.imports.

(** ** Stepping through the monad *)

Ltac unfold_M :=
  unfold result, after, mbind, M_bind, mret, M_ret,
    get_this, put_this, logger_log in *.

Lemma truthy_true (v : option string) :
  truthy v = true ↔ ∃ c, v = Some c ∧ c ≠ "".
Proof.
  destruct v as [c|]; simpl.
  - rewrite negb_true_iff, String.eqb_neq. split.
    + intros Hc. by exists c.
    + by intros [c' [[= ->] Hc]].
  - split; [done | by intros [c [? _]]].
Qed.

Lemma truthy_str (v : option string) :
  truthy v = true → v = Some (str v) ∧ str v ≠ "".
Proof. intros [c [-> Hc]]%truthy_true. done. Qed.

Lemma truthy_Some (c : string) : c ≠ "" → truthy (Some c) = true.
Proof. intros Hc. apply truthy_true. eauto. Qed.

Lemma Session_eta (s : Session) :
  {| this := this s; logged := logged s |} = s.
Proof. by destruct s. Qed.

Section Properties.
Context `{Imports}.

(** *** [scriptParsed], one equation per branch *)

Lemma scriptParsed_resolved (s : Session) (u c : string) :
  resolves s u c →
  scriptParsed u s =
    (c, {| this :=
             {| _webRoot := _webRoot (this s);
                _pathMapping := _pathMapping (this s);
                _clientPathToTargetUrl :=
                  <[c := u]> (_clientPathToTargetUrl (this s));
                _targetUrlToClientPath :=
                  <[u := c]> (_targetUrlToClientPath (this s)) |};
           logged := logged s ++ [resolved_msg u c (_webRoot (this s))] |}).
Proof.
  intros [Hr Hc]. unfold scriptParsed, cache_set. unfold_M.
  rewrite Hr, (truthy_Some c Hc). reflexivity.
Qed.

Lemma scriptParsed_unresolved (s : Session) (u : string) :
  truthy (resolve (this s) u) = false →
  scriptParsed u s =
    (u, {| this := this s;
           logged := logged s ++
             (if startsWith u EVAL_NAME_PREFIX then []
              else [unresolved_msg u (_webRoot (this s))]) |}).
Proof.
  intros Hr. unfold scriptParsed. unfold_M. rewrite Hr. simpl.
  destruct (startsWith u EVAL_NAME_PREFIX); simpl.
  - by rewrite app_nil_r, Session_eta.
  - reflexivity.
Qed.

Lemma resolves_or_not (s : Session) (u : string) :
  (∃ c, resolves s u c) ∨ truthy (resolve (this s) u) = false.
Proof.
  destruct (truthy (resolve (this s) u)) eqn:Hr; [left | by right].
  apply truthy_true in Hr as [c [? ?]]. by exists c.
Qed.

(** A result different from the argument can only come from the resolved
    branch. *)
Lemma scriptParsed_changed (s : Session) (u c : string) :
  result (scriptParsed u) s = c → c ≠ u → resolves s u c.
Proof.
  intros Hres Hne. destruct (resolves_or_not s u) as [[c' Hc'] | Hno].
  - unfold result in Hres. rewrite (scriptParsed_resolved s u c' Hc') in Hres.
    simpl in Hres. by subst.
  - unfold result in Hres. rewrite (scriptParsed_unresolved s u Hno) in Hres.
    simpl in Hres. by subst.
Qed.

Lemma resolve_by_pathMapping (t : UrlPathTransformer) (u c : string) :
  targetUrlToClientPathByPathMappings u (_pathMapping t) = Some c →
  c ≠ "" → resolve t u = Some c.
Proof.
  intros Hpm Hc. unfold resolve. by rewrite Hpm, (truthy_Some c Hc).
Qed.

Lemma resolve_by_webRoot (t : UrlPathTransformer) (u : string) :
  truthy (targetUrlToClientPathByPathMappings u (_pathMapping t)) = false →
  resolve t u = targetUrlToClientPath (_webRoot t) u.
Proof. intros Hpm. unfold resolve. by rewrite Hpm. Qed.

(** *** The getters *)

Lemma getClientPathFromTargetPath_eq (s : Session) (u : string) :
  getClientPathFromTargetPath u s = (by_target s u, s).
Proof. reflexivity. Qed.

Lemma getTargetPathFromClientPath_eq (s : Session) (c : string) :
  getTargetPathFromClientPath c s =
    (if isAbsolute c then by_client s (canonicalizeUrl c) else Some c, s).
Proof. reflexivity. Qed.

End Properties.

(** ** The reference imports and the contracts of the specification *)

Lemma Reference_canonicalizeUrl_idempotent (p : string) :
  Reference.canonicalizeUrl (Reference.canonicalizeUrl p)
  = Reference.canonicalizeUrl p.
Proof.
  unfold Reference.canonicalizeUrl.
  induction p as [| a p IH]; [reflexivity |].
  simpl. rewrite IH. f_equal.
  unfold Reference.normalize_separator.
  destruct (Ascii.eqb a _) eqn:Ha; [reflexivity | by rewrite Ha].
Qed.

Lemma Reference_canonicalizeUrl_nonempty (p : string) :
  p ≠ "" → Reference.canonicalizeUrl p ≠ "".
Proof. by destruct p. Qed.

Lemma Reference_isURL_not_absolute (p : string) :
  Reference.isURL p = true → Reference.isAbsolute p = false.
Proof.
  unfold Reference.isURL. intros [Habs _]%andb_true_iff.
  by apply negb_true_iff.
Qed.

(** ** Round trip through the cache *)

Section RoundTrip.
Context `{Imports}.

(** C1 (as amended).  When [scriptParsed u] returns [c] different from [u],
    then right afterwards [getClientPathFromTargetPath u] is [c];
    [getTargetPathFromClientPath c] is [u] provided [c] is an absolute path
    in canonical form, and is [c] itself when [c] is not absolute. *)
Theorem scriptParsed_round_trip (s : Session) (u c : string) :
  result (scriptParsed u) s = c → c ≠ u →
  let s' := after (scriptParsed u) s in
  result (getClientPathFromTargetPath u) s' = Some c ∧
  (ClientPath c → result (getTargetPathFromClientPath c) s' = Some u) ∧
  (isAbsolute c = false →
   result (getTargetPathFromClientPath c) s' = Some c).
Proof.
  intros Hres Hne s'.
  pose proof (scriptParsed_changed s u c Hres Hne) as Hc.
  unfold result. rewrite getClientPathFromTargetPath_eq,
    getTargetPathFromClientPath_eq. simpl.
  subst s'. unfold after, by_target, by_client.
  rewrite (scriptParsed_resolved s u c Hc). simpl.
  split; [by rewrite lookup_insert_eq |]. split.
  - intros [Habs Hcan]. by rewrite Habs, Hcan, lookup_insert_eq.
  - intros Habs. by rewrite Habs.
Qed.

End RoundTrip.

(** The round trip on scenario 1 of the specification. *)
Lemma scriptParsed_round_trip_witness :
  let s := Reference.launched None [("/app/", "/home/user/proj")] in
  let u := "http://localhost/app/main.js" in
  let c := "/home/user/proj/main.js" in
  let s' := after (scriptParsed u) s in
  result (scriptParsed u) s = c ∧ c ≠ u ∧ ClientPath c ∧
  result (getClientPathFromTargetPath u) s' = Some c ∧
  result (getTargetPathFromClientPath c) s' = Some u.
Proof.
  intros s u c s'.
  assert (Hres : result (scriptParsed u) s = c) by (vm_compute; reflexivity).
  assert (Hne : c ≠ u) by (vm_compute; discriminate).
  assert (Hcp : ClientPath c) by (split; vm_compute; reflexivity).
  destruct (scriptParsed_round_trip s u c Hres Hne) as [Hc [Ht _]].
  exact (conj Hres (conj Hne (conj Hcp (conj Hc (Ht Hcp))))).
Defined.

(** C1 as stated fails for a relative [webRoot]: the client path found is
    not absolute, and [getTargetPathFromClientPath] hands it back instead of
    the URL it was cached with. *)
Lemma scriptParsed_round_trip_relative_webRoot :
  let s := Reference.launched (Some "proj") [] in
  let u := "http://localhost/main.js" in
  let c := result (scriptParsed u) s in
  let s' := after (scriptParsed u) s in
  c = "proj/main.js" ∧ c ≠ u ∧
  result (getClientPathFromTargetPath u) s' = Some c ∧
  result (getTargetPathFromClientPath c) s' = Some c ∧
  result (getTargetPathFromClientPath c) s' ≠ Some u.
Proof.
  vm_compute. repeat split; discriminate.
Qed.

(** ** Resolution order *)

Section Precedence.
Context {I : Imports}.

(** C3.  [scriptParsed] asks the path-mapping resolver first.  When it
    answers with a client path, that path is returned and cached whatever
    the webRoot resolver would have said (replacing the webRoot resolver
    by any other function changes nothing); only when it answers with
    nothing does the webRoot resolver decide. *)
Theorem scriptParsed_pathMapping_first (s : Session) (u : string) :
  let byMapping :=
    targetUrlToClientPathByPathMappings u (_pathMapping (this s)) in
  (∀ c, byMapping = Some c → c ≠ "" →
     result (scriptParsed u) s = c ∧
     by_target (after (scriptParsed u) s) u = Some c ∧
     by_client (after (scriptParsed u) s) c = Some u ∧
     ∀ f, @scriptParsed (with_targetUrlToClientPath I f) u s
          = scriptParsed u s) ∧
  (truthy byMapping = false →
     resolve (this s) u = targetUrlToClientPath (_webRoot (this s)) u ∧
     ∀ c, targetUrlToClientPath (_webRoot (this s)) u = Some c → c ≠ "" →
       result (scriptParsed u) s = c ∧
       by_target (after (scriptParsed u) s) u = Some c ∧
       by_client (after (scriptParsed u) s) c = Some u).
Proof.
  intros byMapping. subst byMapping. split.
  - intros c Hpm Hc.
    assert (Hr : resolves s u c)
      by (split; [by apply resolve_by_pathMapping | done]).
    unfold result, after, by_target, by_client.
    rewrite (scriptParsed_resolved s u c Hr). simpl.
    rewrite !lookup_insert_eq. repeat split.
    intros f.
    rewrite (@scriptParsed_resolved (with_targetUrlToClientPath I f) s u c);
      [reflexivity |].
    split; [| done]. by apply (@resolve_by_pathMapping
                                 (with_targetUrlToClientPath I f)).
  - intros Hpm. split; [by apply resolve_by_webRoot |].
    intros c Hwr Hc.
    assert (Hr : resolves s u c).
    { split; [| done]. by rewrite resolve_by_webRoot. }
    unfold result, after, by_target, by_client.
    rewrite (scriptParsed_resolved s u c Hr). simpl.
    by rewrite !lookup_insert_eq.
Qed.

(** C5.  When neither resolver finds a client path, [scriptParsed] returns
    its argument and leaves the instance as it was; it logs nothing when
    the URL starts with the eval prefix and exactly one line otherwise. *)
Theorem scriptParsed_unresolved_silent_for_eval (s : Session) (u : string) :
  truthy (targetUrlToClientPathByPathMappings u (_pathMapping (this s)))
    = false →
  truthy (targetUrlToClientPath (_webRoot (this s)) u) = false →
  result (scriptParsed u) s = u ∧
  this (after (scriptParsed u) s) = this s ∧
  logged (after (scriptParsed u) s) =
    (logged s ++
       if startsWith u EVAL_NAME_PREFIX then []
       else [unresolved_msg u (_webRoot (this s))])%list.
Proof.
  intros Hpm Hwr.
  assert (Hr : truthy (resolve (this s) u) = false)
    by (by rewrite resolve_by_webRoot).
  unfold result, after. by rewrite (scriptParsed_unresolved s u Hr).
Qed.

End Precedence.

(** Both resolvers match and disagree: the mapping says [/srv/app], the
    webRoot says [/home/user/proj]. *)
Lemma scriptParsed_pathMapping_first_witness :
  let s := Reference.launched (Some "/home/user/proj") [("/app/", "/srv/app")] in
  let u := "http://localhost/app/main.js" in
  targetUrlToClientPath (_webRoot (this s)) u
    = Some "/home/user/proj/app/main.js" ∧
  result (scriptParsed u) s = "/srv/app/main.js" ∧
  by_target (after (scriptParsed u) s) u = Some "/srv/app/main.js".
Proof.
  intros s u. split; [vm_compute; reflexivity |].
  destruct (scriptParsed_pathMapping_first s u) as [Hfirst _].
  destruct (Hfirst "/srv/app/main.js") as (Hres & Ht & _).
  - vm_compute; reflexivity.
  - discriminate.
  - exact (conj Hres Ht).
Defined.

(** Scenario 3 of the specification: an eval script is returned as it is
    and nothing is logged. *)
Lemma scriptParsed_unresolved_silent_for_eval_witness :
  let s := Reference.launched (Some "/home/user/proj") [("/app/", "/srv/app")] in
  result (scriptParsed "eval://123") s = "eval://123" ∧
  logged (after (scriptParsed "eval://123") s) = [].
Proof.
  intros s.
  destruct (scriptParsed_unresolved_silent_for_eval s "eval://123")
    as (Hres & _ & Hlog).
  - vm_compute; reflexivity.
  - vm_compute; reflexivity.
  - exact (conj Hres Hlog).
Defined.

(** An unresolved URL without the eval prefix is logged. *)
Example scriptParsed_unresolved_logged :
  let s := Reference.launched (Some "/home/user/proj") [] in
  scriptParsed "about:blank" s =
    ("about:blank",
     {| this := this s;
        logged := [unresolved_msg "about:blank" (Some "/home/user/proj")] |}).
Proof. vm_compute. reflexivity. Qed.

(** ** Breakpoint requests *)

Section SetBreakpoints.
Context {I : Imports}.

(** [setBreakpoints] touches the request only through [source.path]. *)
Lemma setBreakpoints_only_path (s : Session) (args : ISetBreakpointsArgs) :
  let args' := result (setBreakpoints args) s in
  args' = args ∨ ∃ p, args' = set_source_path args p.
Proof.
  unfold setBreakpoints, getTargetPathFromClientPath. unfold_M. simpl.
  destruct (truthy (Source.path (source args))); simpl; [| by left].
  destruct (isURL _); simpl; [by left |].
  destruct (truthy _); simpl; right; eauto.
Qed.

(** [setBreakpoints] logs, and does nothing else to the session. *)
Lemma setBreakpoints_this (s : Session) (args : ISetBreakpointsArgs) :
  this (after (setBreakpoints args) s) = this s.
Proof.
  unfold setBreakpoints, getTargetPathFromClientPath. unfold_M. simpl.
  destruct (truthy (Source.path (source args))); simpl; [| done].
  destruct (isURL _); simpl; [done |].
  by destruct (truthy _).
Qed.

(** C4.  [setBreakpoints] is a total function of the request and the
    session.  A request without a path comes back untouched and nothing is
    logged; a path in URL form is kept; any other path is replaced by what
    [getTargetPathFromClientPath] returns for its canonical form when that
    is a non-empty string, and by the canonical form otherwise.  The path
    that comes back is non-empty whenever the canonical form of the given
    path is. *)
Theorem setBreakpoints_postcondition (s : Session) (args : ISetBreakpointsArgs) :
  let args' := result (setBreakpoints args) s in
  let p := str (Source.path (source args)) in
  let url := result (getTargetPathFromClientPath (canonicalizeUrl p)) s in
  (truthy (Source.path (source args)) = false →
     setBreakpoints args s = (args, s)) ∧
  (truthy (Source.path (source args)) = true → isURL p = true →
     args' = args) ∧
  (truthy (Source.path (source args)) = true → isURL p = false →
     truthy url = true →
     args' = set_source_path args (str url)) ∧
  (truthy (Source.path (source args)) = true → isURL p = false →
     truthy url = false →
     args' = set_source_path args (canonicalizeUrl p)) ∧
  (truthy (Source.path (source args)) = true → canonicalizeUrl p ≠ "" →
     truthy (Source.path (source args')) = true) ∧
  url = (if isAbsolute (canonicalizeUrl p)
         then by_client s (canonicalizeUrl (canonicalizeUrl p))
         else Some (canonicalizeUrl p)) ∧
  this (after (setBreakpoints args) s) = this s.
Proof.
  intros args' p url. subst args' url.
  pose proof (setBreakpoints_this s args) as Hthis. revert Hthis.
  unfold setBreakpoints. fold p.
  unfold getTargetPathFromClientPath, by_client. unfold_M. simpl.
  destruct (truthy (Source.path (source args))) eqn:Hp; simpl.
  - split; [done |].
    destruct (isURL p) eqn:Hurl; simpl.
    + repeat split; try done.
    + destruct (truthy (if isAbsolute (canonicalizeUrl p) then _ else _))
        eqn:Hfound; simpl.
      * repeat split; try done. intros _ _.
        by apply truthy_str in Hfound as [_ ?%truthy_Some].
      * repeat split; try done. intros _ Hcanon. by apply truthy_Some.
  - repeat split; done.
Qed.

End SetBreakpoints.

(** Scenario 1 of the specification, second half: once the script has been
    reported, a breakpoint on its client path is sent to its URL. *)
Lemma setBreakpoints_postcondition_witness :
  let s0 := Reference.launched None [("/app/", "/home/user/proj")] in
  let s := after (scriptParsed "http://localhost/app/main.js") s0 in
  let args := {| source := {| Source.name := Some "main.js";
                              Source.path := Some "/home/user/proj/main.js";
                              Source.sourceReference := None;
                              Source.origin := None |};
                 lines := [3%Z; 14%Z]; authoredPath := None |} in
  result (setBreakpoints args) s
    = set_source_path args "http://localhost/app/main.js" ∧
  truthy (Source.path (source (result (setBreakpoints args) s))) = true.
Proof.
  intros s0 s args.
  destruct (setBreakpoints_postcondition s args)
    as (_ & _ & Hfound & _ & Hnonempty & _).
  split.
  - apply Hfound; vm_compute; reflexivity.
  - apply Hnonempty; [vm_compute; reflexivity | vm_compute; discriminate].
Defined.

(** A client path that has not been reported yet goes out in canonical
    form. *)
Example setBreakpoints_not_cached :
  let s := Reference.launched (Some "/home/user/proj") [] in
  let args := {| source := {| Source.name := None;
                              Source.path := Some "/home/user/proj\lib/a.js";
                              Source.sourceReference := None;
                              Source.origin := None |};
                 lines := []; authoredPath := None |} in
  setBreakpoints args s =
    (set_source_path args "/home/user/proj/lib/a.js",
     {| this := this s;
        logged := ["Paths.setBP: No target url cached yet for client path: /home/user/proj/lib/a.js."] |}).
Proof. vm_compute. reflexivity. Qed.

(** ** Stack traces *)

Section StackTrace.
Context {I : Imports}.

Lemma resolveFrame_eq (s : Session) (frame : StackFrame.t) :
  resolveFrame frame s = (resolvedFrame s frame, s).
Proof.
  unfold resolveFrame, resolvedFrame, frameClientPath, by_target,
    getClientPathFromTargetPath.
  destruct (StackFrame.source frame) as [src|]; [| reflexivity].
  destruct (truthy (Source.path src)); [| reflexivity].
  unfold_M. simpl.
  by destruct (truthy (js_or _ _)).
Qed.

Lemma forEach_resolveFrame (s : Session) (frames : list StackFrame.t) :
  forEach resolveFrame frames s = (resolvedFrame s <$> frames, s).
Proof.
  induction frames as [| frame frames IH]; [reflexivity |].
  simpl. unfold mbind, M_bind at 1. rewrite resolveFrame_eq.
  unfold mbind, M_bind at 1. by rewrite IH.
Qed.

Lemma stackTraceResponse_eq (s : Session) (response : IStackTraceResponseBody) :
  stackTraceResponse response s =
    ({| stackFrames := resolvedFrame s <$> stackFrames response;
        totalFrames := totalFrames response |}, s).
Proof.
  unfold stackTraceResponse. unfold mbind, M_bind.
  by rewrite forEach_resolveFrame.
Qed.

(** C6.  [stackTraceResponse] rewrites the frames one by one and in place.
    A frame whose source has a non-empty path for which the cache, or
    failing that the webRoot resolver, gives a client path gets that path
    and loses [sourceReference] and [origin]; nothing else in it changes.
    A frame without source, without path, or whose path neither the cache
    nor the webRoot resolver resolves stays as it is. *)
Theorem stackTraceResponse_frames
    (s : Session) (response : IStackTraceResponseBody) :
  let response' := result (stackTraceResponse response) s in
  totalFrames response' = totalFrames response ∧
  length (stackFrames response') = length (stackFrames response) ∧
  ∀ (i : nat) (frame : StackFrame.t),
    stackFrames response !! i = Some frame →
    ∃ frame', stackFrames response' !! i = Some frame' ∧
      (∀ src p c,
         StackFrame.source frame = Some src →
         Source.path src = Some p → p ≠ "" →
         (by_target s p = Some c ∨
          (truthy (by_target s p) = false ∧
           targetUrlToClientPath (_webRoot (this s)) p = Some c)) →
         c ≠ "" →
         frame' = StackFrame.with_source frame
                    {| Source.name := Source.name src;
                       Source.path := Some c;
                       Source.sourceReference := None;
                       Source.origin := None |}) ∧
      (StackFrame.source frame = None → frame' = frame) ∧
      (∀ src, StackFrame.source frame = Some src →
         truthy (Source.path src) = false → frame' = frame) ∧
      (∀ src p, StackFrame.source frame = Some src →
         Source.path src = Some p →
         truthy (by_target s p) = false →
         truthy (targetUrlToClientPath (_webRoot (this s)) p) = false →
         frame' = frame).
Proof.
  intros response'. subst response'. unfold result.
  rewrite stackTraceResponse_eq. simpl.
  split; [done |]. split; [by rewrite length_fmap |].
  intros i frame Hi. exists (resolvedFrame s frame).
  split; [by rewrite list_lookup_fmap, Hi |].
  unfold resolvedFrame, frameClientPath. repeat split.
  - intros src p c -> Hp Hne Hc Hcne. rewrite Hp, (truthy_Some p Hne). simpl.
    assert (Hor : js_or (by_target s p)
                    (targetUrlToClientPath (_webRoot (this s)) p) = Some c).
    { unfold js_or. destruct Hc as [-> | [-> ->]]; [| done].
      by rewrite (truthy_Some c Hcne). }
    by rewrite Hor, (truthy_Some c Hcne).
  - by intros ->.
  - by intros src -> ->.
  - intros src p -> Hp Hcache Hwr.
    destruct (truthy (Source.path src)); [| done].
    rewrite Hp. unfold js_or, str. simpl default. by rewrite Hcache, Hwr.
Qed.

End StackTrace.

(** Scenario 4 of the specification: a frame whose URL is in the cache. *)
Lemma stackTraceResponse_frames_witness :
  let s0 := Reference.launched None [("/app/", "/home/user/proj")] in
  let s := after (scriptParsed "http://localhost/app/main.js") s0 in
  let src := {| Source.name := Some "main.js";
                Source.path := Some "http://localhost/app/main.js";
                Source.sourceReference := Some 7%Z;
                Source.origin := Some "remote" |} in
  let frame := {| StackFrame.id := 1; StackFrame.name := "handler";
                  StackFrame.source := Some src;
                  StackFrame.line := 10; StackFrame.column := 4 |} in
  let response := {| stackFrames := [frame]; totalFrames := Some 1%Z |} in
  stackFrames (result (stackTraceResponse response) s) !! 0%nat =
    Some {| StackFrame.id := 1; StackFrame.name := "handler";
            StackFrame.source :=
              Some {| Source.name := Some "main.js";
                      Source.path := Some "/home/user/proj/main.js";
                      Source.sourceReference := None;
                      Source.origin := None |};
            StackFrame.line := 10; StackFrame.column := 4 |}.
Proof.
  intros s0 s src frame response.
  destruct (stackTraceResponse_frames s response) as (_ & _ & Hframes).
  destruct (Hframes 0%nat frame eq_refl) as (frame' & -> & Hresolved & _).
  f_equal.
  apply (Hresolved src "http://localhost/app/main.js" "/home/user/proj/main.js").
  - reflexivity.
  - reflexivity.
  - discriminate.
  - left. vm_compute. reflexivity.
  - discriminate.
Defined.

(** ** Which calls write the cache *)

Section Frame.
Context {I : Imports}.

Lemma after_discard {A} (m : M A) (s : Session) :
  after (m;; mret tt) s = after m s.
Proof. unfold after, mbind, M_bind, mret, M_ret. by destruct (m s). Qed.

(** What one call does to the two maps. *)
Lemma call_cache (c : Call) (s : Session) :
  cache (after (call c) s) =
    match c with
    | ClearTargetContext => (∅, ∅)
    | ScriptParsed u =>
      if truthy (resolve (this s) u)
      then (<[str (resolve (this s) u) := u]> (cache s).1,
            <[u := str (resolve (this s) u)]> (cache s).2)
      else cache s
    | _ => cache s
    end.
Proof.
  destruct c as [args | args | args | | u | r | c | u]; simpl;
    rewrite ?after_discard; try reflexivity.
  - unfold cache. by rewrite setBreakpoints_this.
  - destruct (truthy (resolve (this s) u)) eqn:Hr.
    + apply truthy_str in Hr as [Hr Hne].
      unfold after. by rewrite (scriptParsed_resolved s u _ (conj Hr Hne)).
    + unfold after. by rewrite (scriptParsed_unresolved s u Hr).
  - unfold after. by rewrite stackTraceResponse_eq.
Qed.

Lemma calls_cons (c : Call) (l : list Call) (s : Session) :
  after (calls (c :: l)) s = after (calls l) (after (call c) s).
Proof.
  simpl. unfold after, mbind, M_bind. by destruct (call c s).
Qed.

Lemma calls_preserve_cache (l : list Call) (s : Session) :
  no_resolution l s → no_clear l → cache (after (calls l) s) = cache s.
Proof.
  revert s. induction l as [| c l IH]; intros s Hres Hclear; [reflexivity |].
  destruct Hres as [Hc Hres]. apply Forall_cons in Hclear as [Hnc Hclear].
  rewrite calls_cons, (IH _ Hres Hclear), call_cache.
  destruct c; try done. by rewrite Hc.
Qed.

Lemma calls_keep_cache_empty (l : list Call) (s : Session) :
  cache s = (∅, ∅) → no_resolution l s → cache (after (calls l) s) = (∅, ∅).
Proof.
  revert s. induction l as [| c l IH]; intros s Hempty Hres; [done |].
  destruct Hres as [Hc Hres]. rewrite calls_cons. apply IH; [| done].
  rewrite call_cache. destruct c; try done. by rewrite Hc.
Qed.

(** C9.  [setBreakpoints], the two getters and [stackTraceResponse] hand
    the instance back as they found it, whatever their arguments, and so
    does a [scriptParsed] that finds no client path.  Hence any sequence of
    calls in which no [scriptParsed] finds a client path and
    [clearTargetContext] does not occur leaves both maps as they were. *)
Theorem cache_written_only_by_scriptParsed_and_clear (s : Session) :
  (∀ args, this (after (setBreakpoints args) s) = this s) ∧
  (∀ c, after (getTargetPathFromClientPath c) s = s) ∧
  (∀ u, after (getClientPathFromTargetPath u) s = s) ∧
  (∀ r, after (stackTraceResponse r) s = s) ∧
  (∀ u, truthy (resolve (this s) u) = false →
        this (after (scriptParsed u) s) = this s) ∧
  (∀ l, no_resolution l s → no_clear l → cache (after (calls l) s) = cache s).
Proof.
  repeat split.
  - intros args. apply setBreakpoints_this.
  - intros r. unfold after. by rewrite stackTraceResponse_eq.
  - intros u Hr. unfold after. by rewrite (scriptParsed_unresolved s u Hr).
  - intros l. apply calls_preserve_cache.
Qed.

End Frame.

(** A frame resolved by the webRoot resolver alone: the frame is rewritten,
    the cache stays empty, also across the calls that follow. *)
Lemma cache_written_only_by_scriptParsed_and_clear_witness :
  let s := Reference.launched (Some "/home/user/proj") [] in
  let src := {| Source.name := None;
                Source.path := Some "http://localhost/lib.js";
                Source.sourceReference := Some 3%Z;
                Source.origin := None |} in
  let frame := {| StackFrame.id := 0; StackFrame.name := "f";
                  StackFrame.source := Some src;
                  StackFrame.line := 1; StackFrame.column := 1 |} in
  let response := {| stackFrames := [frame]; totalFrames := None |} in
  let l := [StackTraceResponse response;
            ScriptParsed "eval://1";
            GetClientPathFromTargetPath "http://localhost/lib.js";
            Attach {| webRoot := None; pathMapping := None |}] in
  stackFrames (result (stackTraceResponse response) s)
    = [StackFrame.with_source frame
         {| Source.name := None;
            Source.path := Some "/home/user/proj/lib.js";
            Source.sourceReference := None;
            Source.origin := None |}] ∧
  after (stackTraceResponse response) s = s ∧
  by_target (after (stackTraceResponse response) s) "http://localhost/lib.js"
    = None ∧
  cache (after (calls l) s) = cache s.
Proof.
  intros s src frame response l.
  destruct (cache_written_only_by_scriptParsed_and_clear s)
    as (_ & _ & _ & Hstack & _ & Hcalls).
  split; [vm_compute; reflexivity |].
  split; [apply Hstack |].
  split; [rewrite Hstack; vm_compute; reflexivity |].
  apply Hcalls.
  - repeat split.
  - repeat constructor; discriminate.
Defined.

(** ** Reconfiguration and reset *)

Section Lifecycle.
Context {I : Imports}.

(** C10.  [launch] and [attach] replace [_webRoot] and [_pathMapping] (an
    absent mapping becomes the empty one) and nothing else: both maps and
    the log are as before, and both getters answer as before. *)
Theorem launch_attach_keep_cache (s : Session) (args : ICommonRequestArgs) :
  let s' := after (launch args) s in
  s' = {| this :=
            {| _webRoot := webRoot args;
               _pathMapping := default [] (pathMapping args);
               _clientPathToTargetUrl := _clientPathToTargetUrl (this s);
               _targetUrlToClientPath := _targetUrlToClientPath (this s) |};
          logged := logged s |} ∧
  after (attach args) s = s' ∧
  cache s' = cache s ∧
  (∀ u, result (getClientPathFromTargetPath u) s'
        = result (getClientPathFromTargetPath u) s) ∧
  (∀ c, result (getTargetPathFromClientPath c) s'
        = result (getTargetPathFromClientPath c) s).
Proof. repeat split. Qed.

Lemma clearTargetContext_cache (s : Session) :
  cache (after clearTargetContext s) = (∅, ∅).
Proof. reflexivity. Qed.

Lemma empty_cache_lookups (s : Session) :
  cache s = (∅, ∅) →
  (∀ u, result (getClientPathFromTargetPath u) s = None) ∧
  (∀ c, isAbsolute c = true →
        result (getTargetPathFromClientPath c) s = None).
Proof.
  unfold cache. intros [= Hcli Htgt]. split.
  - intros u. unfold result. rewrite getClientPathFromTargetPath_eq.
    unfold by_target. simpl. by rewrite Htgt, lookup_empty.
  - intros c Habs. unfold result. rewrite getTargetPathFromClientPath_eq.
    unfold by_client. simpl. by rewrite Habs, Hcli, lookup_empty.
Qed.

(** C7.  After [clearTargetContext], and for as long as no [scriptParsed]
    finds a client path, [getClientPathFromTargetPath] answers none for
    every URL and [getTargetPathFromClientPath] answers none for every
    absolute client path. *)
Theorem clearTargetContext_resets (s : Session) (l : list Call) :
  no_resolution l (after clearTargetContext s) →
  let s' := after (calls l) (after clearTargetContext s) in
  (∀ u, result (getClientPathFromTargetPath u) s' = None) ∧
  (∀ c, isAbsolute c = true →
        result (getTargetPathFromClientPath c) s' = None).
Proof.
  intros Hres s'. apply empty_cache_lookups.
  apply calls_keep_cache_empty; [apply clearTargetContext_cache | done].
Qed.

End Lifecycle.

(** A pair is cached, the context is cleared, and neither lookup finds it
    any more. *)
Lemma clearTargetContext_resets_witness :
  let s0 := Reference.launched None [("/app/", "/home/user/proj")] in
  let s := after (scriptParsed "http://localhost/app/main.js") s0 in
  let l := [ScriptParsed "eval://9";
            GetTargetPathFromClientPath "/home/user/proj/main.js"] in
  let s' := after (calls l) (after clearTargetContext s) in
  result (getClientPathFromTargetPath "http://localhost/app/main.js") s
    = Some "/home/user/proj/main.js" ∧
  result (getTargetPathFromClientPath "/home/user/proj/main.js") s
    = Some "http://localhost/app/main.js" ∧
  result (getClientPathFromTargetPath "http://localhost/app/main.js") s'
    = None ∧
  result (getTargetPathFromClientPath "/home/user/proj/main.js") s' = None.
Proof.
  intros s0 s l s'.
  assert (Hres : no_resolution l (after clearTargetContext s)).
  { repeat split. }
  destruct (clearTargetContext_resets s l Hres) as [Hclient Htarget].
  split; [vm_compute; reflexivity |].
  split; [vm_compute; reflexivity |].
  split; [apply Hclient |].
  apply Htarget. vm_compute. reflexivity.
Defined.

(** ** Client path to target URL *)

Section Dispatch.
Context {I : Imports}.

(** C8 (as amended).  [getTargetPathFromClientPath] changes nothing and
    dispatches on [path.isAbsolute]: an input that is not an absolute path
    (a URL, but a relative filesystem path just as well) is returned as it
    is, whatever the cache holds; an absolute path is canonicalized and the
    entry of the client-to-target map under the canonical path is
    returned, none when there is no such entry. *)
Theorem getTargetPathFromClientPath_dispatch (s : Session) (clientPath : string) :
  after (getTargetPathFromClientPath clientPath) s = s ∧
  (isAbsolute clientPath = false →
     result (getTargetPathFromClientPath clientPath) s = Some clientPath) ∧
  (isAbsolute clientPath = true →
     result (getTargetPathFromClientPath clientPath) s
       = by_client s (canonicalizeUrl clientPath)).
Proof.
  unfold result, after. rewrite getTargetPathFromClientPath_eq. simpl.
  split; [done |]. split; by intros ->.
Qed.

End Dispatch.

(** A URL passes through although the cache has no entry for it; an absolute
    path is looked up under its canonical form. *)
Lemma getTargetPathFromClientPath_dispatch_witness :
  let s0 := Reference.launched None [("/app/", "/home/user/proj")] in
  let s := after (scriptParsed "http://localhost/app/main.js") s0 in
  result (getTargetPathFromClientPath "http://localhost/other.js") s
    = Some "http://localhost/other.js" ∧
  result (getTargetPathFromClientPath "/home/user\proj/main.js") s
    = Some "http://localhost/app/main.js".
Proof.
  intros s0 s. split.
  - apply (getTargetPathFromClientPath_dispatch s "http://localhost/other.js").
    vm_compute. reflexivity.
  - destruct (getTargetPathFromClientPath_dispatch s "/home/user\proj/main.js")
      as (_ & _ & Habs).
    rewrite Habs; vm_compute; reflexivity.
Defined.

(** C8 as stated fails for a relative filesystem path: it is not in URL
    form, the cache has no entry for its canonical form, and yet the answer
    is the path itself and not none. *)
Lemma getTargetPathFromClientPath_relative_path :
  let s := Reference.launched (Some "/home/user/proj") [] in
  let p := "src/app.js" in
  isURL p = false ∧
  by_client s (canonicalizeUrl p) = None ∧
  result (getTargetPathFromClientPath p) s = Some p ∧
  result (getTargetPathFromClientPath p) s ≠ by_client s (canonicalizeUrl p).
Proof. vm_compute. repeat split; discriminate. Qed.

(** ** The two maps together *)

Section Cache.
Context {I : Imports}.

Lemma coupled_insert (s s' : Session) (c u : string) :
  cache s' = (<[c := u]> (cache s).1, <[u := c]> (cache s).2) →
  coupled s → coupled s'.
Proof.
  unfold cache, coupled, by_target, by_client. simpl.
  intros [= -> ->] [Ht Hc]. split.
  - intros u0 c0. destruct (decide (u = u0)) as [<- | Hne].
    + rewrite lookup_insert_eq. intros [= <-]. rewrite lookup_insert_eq. eauto.
    + rewrite lookup_insert_ne by done. intros Hu0.
      apply lookup_insert_is_Some'. right. by eapply Ht.
  - intros c0 u0. destruct (decide (c = c0)) as [<- | Hne].
    + rewrite lookup_insert_eq. intros [= <-]. rewrite lookup_insert_eq. eauto.
    + rewrite lookup_insert_ne by done. intros Hc0.
      apply lookup_insert_is_Some'. right. by eapply Hc.
Qed.

Lemma coupled_same_cache (s s' : Session) :
  cache s' = cache s → coupled s → coupled s'.
Proof.
  unfold cache, coupled, by_target, by_client. by intros [= -> ->].
Qed.

Lemma coupled_empty (s : Session) : cache s = (∅, ∅) → coupled s.
Proof.
  unfold cache, coupled, by_target, by_client. intros [= -> ->].
  split; intros ? ?; by rewrite lookup_empty.
Qed.

Lemma call_coupled (c : Call) (s : Session) :
  coupled s → coupled (after (call c) s).
Proof.
  intros Hs. pose proof (call_cache c s) as Hc.
  destruct c as [args | args | args | | u | r | c | u];
    try (by apply (coupled_same_cache s)).
  - by apply coupled_empty.
  - destruct (truthy (resolve (this s) u)).
    + by apply (coupled_insert s _ _ _ Hc).
    + by apply (coupled_same_cache s).
Qed.

Lemma calls_coupled (l : list Call) (s : Session) :
  coupled s → coupled (after (calls l) s).
Proof.
  revert s. induction l as [| c l IH]; intros s Hs; [done |].
  rewrite calls_cons. by apply IH, call_coupled.
Qed.

Lemma calls_insertions (l : list Call) (s : Session)
    (h : list (string * string)) :
  cache s = (list_to_map h, list_to_map (prod_swap <$> h)) →
  let h' := insertions l s h in
  cache (after (calls l) s)
    = (list_to_map h', list_to_map (prod_swap <$> h')).
Proof.
  revert s h. induction l as [| c l IH]; intros s h Hs; [done |].
  simpl insertions. rewrite calls_cons. apply IH.
  rewrite call_cache. destruct c as [| | | | u | | |]; try done.
  destruct (truthy (resolve (this s) u)); [| done].
  by rewrite Hs.
Qed.

(** C2 (as amended).  After any sequence of calls on a fresh instance the
    two maps are exactly what the insertions made since the last
    [clearTargetContext] build up, each insertion writing its pair into
    both maps over whatever its own two keys held before: the pair just
    inserted is found in both directions, every entry under another key
    stays where it was (so an older pair that shares only one key with a
    newer one is still found from its other key), and a client path or
    URL found in one map is always a key of the other. *)
Theorem cache_last_write_wins (l : list Call) :
  let s := after (calls l) new_Session in
  let h := insertions l new_Session [] in
  cache s = (list_to_map h, list_to_map (prod_swap <$> h)) ∧
  (∀ u c, result (getClientPathFromTargetPath u) s = Some c →
     ClientPath c → is_Some (result (getTargetPathFromClientPath c) s)) ∧
  (∀ c u, isAbsolute c = true →
     result (getTargetPathFromClientPath c) s = Some u →
     is_Some (result (getClientPathFromTargetPath u) s)) ∧
  (∀ u c, resolves s u c →
     let s' := after (scriptParsed u) s in
     result (scriptParsed u) s = c ∧
     by_target s' u = Some c ∧ by_client s' c = Some u ∧
     (∀ u', u' ≠ u → by_target s' u' = by_target s u') ∧
     (∀ c', c' ≠ c → by_client s' c' = by_client s c')).
Proof.
  intros s h.
  assert (Hcoupled : coupled s)
    by (by apply calls_coupled, coupled_empty).
  split; [by apply calls_insertions |].
  destruct Hcoupled as [Ht Hc]. split; [| split].
  - intros u c Hu [Habs Hcan]. unfold result in *.
    rewrite getClientPathFromTargetPath_eq in Hu.
    rewrite getTargetPathFromClientPath_eq. simpl in *.
    rewrite Habs, Hcan. by eapply Ht.
  - intros c u Habs Hcu. unfold result in *.
    rewrite getTargetPathFromClientPath_eq in Hcu.
    rewrite getClientPathFromTargetPath_eq. simpl in *.
    rewrite Habs in Hcu. by eapply Hc.
  - intros u c Hr s'. subst s'. unfold result, after, by_target, by_client.
    rewrite (scriptParsed_resolved s u c Hr). simpl.
    rewrite !lookup_insert_eq. repeat split.
    + intros u' Hne. by rewrite lookup_insert_ne.
    + intros c' Hne. by rewrite lookup_insert_ne.
Qed.

End Cache.

(** Two URLs of one file: both insertions are in the history, the newer one
    owns the client path, the older URL is still answered. *)
Lemma cache_last_write_wins_witness :
  let l := [Launch {| webRoot := Some "/home/user/proj"; pathMapping := None |};
            ScriptParsed "http://localhost/main.js";
            ScriptParsed "http://127.0.0.1/main.js"] in
  let s := after (calls l) new_Session in
  insertions l new_Session []
    = [("/home/user/proj/main.js", "http://127.0.0.1/main.js");
       ("/home/user/proj/main.js", "http://localhost/main.js")] ∧
  cache s
    = (<["/home/user/proj/main.js" := "http://127.0.0.1/main.js"]>
         (<["/home/user/proj/main.js" := "http://localhost/main.js"]> ∅),
       <["http://127.0.0.1/main.js" := "/home/user/proj/main.js"]>
         (<["http://localhost/main.js" := "/home/user/proj/main.js"]> ∅)) ∧
  is_Some (result (getTargetPathFromClientPath "/home/user/proj/main.js") s).
Proof.
  intros l s.
  destruct (cache_last_write_wins l) as (Hcache & Hclient & _).
  split; [vm_compute; reflexivity |]. split.
  - exact Hcache.
  - apply (Hclient "http://localhost/main.js").
    + vm_compute. reflexivity.
    + split; vm_compute; reflexivity.
Defined.

(** C2 as stated fails in both directions.  Two URLs that resolve to the
    same file leave the older URL pointing at a client path that points at
    the newer URL; one URL resolved under two configurations leaves the
    older client path pointing at a URL that points at the newer path. *)
Lemma cache_stale_entries :
  let launch_at wr := Launch {| webRoot := Some wr; pathMapping := None |} in
  let s1 := after (calls [launch_at "/home/user/proj";
                          ScriptParsed "http://localhost/main.js";
                          ScriptParsed "http://127.0.0.1/main.js"])
              new_Session in
  let s2 := after (calls [launch_at "/home/user/old";
                          ScriptParsed "http://localhost/main.js";
                          launch_at "/home/user/new";
                          ScriptParsed "http://localhost/main.js"])
              new_Session in
  (result (getClientPathFromTargetPath "http://localhost/main.js") s1
     = Some "/home/user/proj/main.js" ∧
   result (getTargetPathFromClientPath "/home/user/proj/main.js") s1
     = Some "http://127.0.0.1/main.js" ∧
   result (getTargetPathFromClientPath "/home/user/proj/main.js") s1
     ≠ Some "http://localhost/main.js") ∧
  (result (getTargetPathFromClientPath "/home/user/old/main.js") s2
     = Some "http://localhost/main.js" ∧
   result (getClientPathFromTargetPath "http://localhost/main.js") s2
     = Some "/home/user/new/main.js" ∧
   result (getClientPathFromTargetPath "http://localhost/main.js") s2
     ≠ Some "/home/user/old/main.js").
Proof. vm_compute. repeat split; discriminate. Qed.

(** ** The scenarios of the specification, run on the reference imports *)

Example scenario_pathMapping :
  result (scriptParsed "http://localhost/app/main.js")
    (Reference.launched None [("/app/", "/home/user/proj")])
  = "/home/user/proj/main.js".
Proof. vm_compute. reflexivity. Qed.

Example scenario_webRoot :
  result (scriptParsed "http://localhost/main.js")
    (Reference.launched (Some "/home/user/proj") [])
  = "/home/user/proj/main.js".
Proof. vm_compute. reflexivity. Qed.

Example scenario_eval :
  let s := Reference.launched (Some "/home/user/proj") [] in
  scriptParsed "eval://123" s = ("eval://123", s).
Proof. vm_compute. reflexivity. Qed.


(** * Further properties of the methods *)

(** ** [setBreakpoints] *)

Section MoreSetBreakpoints.
Context {I : Imports}.

(** The request [setBreakpoints] hands back, as a function of the instance. *)
Lemma setBreakpoints_result (s : Session) (args : ISetBreakpointsArgs) :
  result (setBreakpoints args) s =
    if negb (truthy (Source.path (source args))) then args
    else
      let p := str (Source.path (source args)) in
      if isURL p then args
      else
        let path := canonicalizeUrl p in
        let url := if isAbsolute path
                   then by_client s (canonicalizeUrl path)
                   else Some path in
        if truthy url then set_source_path args (str url)
        else set_source_path args path.
Proof.
  unfold setBreakpoints, getTargetPathFromClientPath, by_client.
  unfold_M. simpl.
  destruct (truthy (Source.path (source args))); simpl; [| done].
  destruct (isURL _); simpl; [done |].
  by destruct (truthy _).
Qed.

Lemma set_source_path_twice (args : ISetBreakpointsArgs) (p q : string) :
  set_source_path (set_source_path args p) q = set_source_path args q.
Proof. reflexivity. Qed.

(** X1.  Whatever the request and the cache, [setBreakpoints] leaves the
    breakpoint lines, [authoredPath] and the name, [sourceReference] and
    [origin] of the source as they were, and a request that had no path
    (absent or empty) still has the same one afterwards. *)
Theorem setBreakpoints_keeps_other_fields
    (s : Session) (args : ISetBreakpointsArgs) :
  let args' := result (setBreakpoints args) s in
  lines args' = lines args ∧
  authoredPath args' = authoredPath args ∧
  Source.name (source args') = Source.name (source args) ∧
  Source.sourceReference (source args')
    = Source.sourceReference (source args) ∧
  Source.origin (source args') = Source.origin (source args) ∧
  (truthy (Source.path (source args)) = false →
   Source.path (source args') = Source.path (source args)).
Proof.
  intros args'. subst args'. rewrite setBreakpoints_result.
  destruct (truthy (Source.path (source args))); simpl; [| done].
  destruct (isURL _); simpl; [done |].
  by destruct (truthy _).
Qed.

(** X2.  Sending the same request through [setBreakpoints] a second time
    changes nothing more, provided the canonical form of its path is a fixed
    point of [canonicalizeUrl] and the target URL cached for that path, if
    any, is recognised by [isURL]. *)
Theorem setBreakpoints_idempotent (s : Session) (args : ISetBreakpointsArgs) :
  let p := canonicalizeUrl (str (Source.path (source args))) in
  canonicalizeUrl p = p →
  (∀ u, isAbsolute p = true → by_client s p = Some u → isURL u = true) →
  let args' := result (setBreakpoints args) s in
  result (setBreakpoints args') (after (setBreakpoints args) s) = args'.
Proof.
  intros p Hidem Hurl args'. subst args'.
  rewrite (setBreakpoints_result (after _ s)).
  unfold by_client in *. rewrite setBreakpoints_this.
  rewrite setBreakpoints_result. unfold by_client.
  destruct (truthy (Source.path (source args))) eqn:Hpath; simpl;
    [| by rewrite Hpath].
  destruct (isURL (str (Source.path (source args)))) eqn:Hisurl; simpl;
    [by rewrite Hpath; simpl; rewrite Hisurl |].
  fold p. rewrite !Hidem.
  destruct (isAbsolute p) eqn:Habs.
  - destruct (_clientPathToTargetUrl (this s) !! p) as [u|] eqn:Hu; simpl.
    + destruct (String.eqb u "") eqn:Hempty; simpl.
      * destruct (String.eqb p "") eqn:Hp; simpl; [done |].
        destruct (isURL p); [done |].
        rewrite !Hidem, Habs, Hu. simpl. by rewrite Hempty.
      * rewrite Hempty. simpl. by rewrite (Hurl u eq_refl eq_refl).
    + destruct (String.eqb p "") eqn:Hp; simpl; [done |].
      destruct (isURL p); [done |].
      by rewrite !Hidem, Habs, Hu.
  - simpl. destruct (String.eqb p "") eqn:Hp; simpl.
    + by rewrite Hp.
    + rewrite Hp. simpl. destruct (isURL p); [done |].
      rewrite !Hidem, Habs. simpl. by rewrite Hp.
Qed.

(** X3.  A breakpoint on a file that [scriptParsed] has just resolved goes
    out with the script's URL: when [scriptParsed u] finds the absolute
    canonical client path [c] for a non-empty [u], a following
    [setBreakpoints] whose path is not a URL and canonicalizes to [c] has
    its path replaced by [u]. *)
Theorem scriptParsed_then_setBreakpoints
    (s : Session) (u c p : string) (args : ISetBreakpointsArgs) :
  resolves s u c → ClientPath c → u ≠ "" →
  Source.path (source args) = Some p → p ≠ "" →
  isURL p = false → canonicalizeUrl p = c →
  result (setBreakpoints args) (after (scriptParsed u) s)
    = set_source_path args u.
Proof.
  intros Hr [Habs Hcan] Hu Hpath Hp Hisurl Hpc.
  rewrite setBreakpoints_result, Hpath, (truthy_Some p Hp). simpl.
  rewrite Hisurl, Hpc, Hcan, Habs.
  unfold by_client, after. rewrite (scriptParsed_resolved s u c Hr). simpl.
  by rewrite lookup_insert_eq, (truthy_Some u Hu).
Qed.

(** X4.  After [clearTargetContext], and for as long as no [scriptParsed]
    finds a client path, [setBreakpoints] never sends out a URL remembered
    from before: a path that is not a URL is replaced by its canonical
    form. *)
Theorem clearTargetContext_then_setBreakpoints
    (s : Session) (l : list Call) (p : string) (args : ISetBreakpointsArgs) :
  no_resolution l (after clearTargetContext s) →
  Source.path (source args) = Some p → p ≠ "" → isURL p = false →
  result (setBreakpoints args) (after (calls l) (after clearTargetContext s))
    = set_source_path args (canonicalizeUrl p).
Proof.
  intros Hres Hpath Hp Hisurl.
  pose proof (calls_keep_cache_empty l _ (clearTargetContext_cache s) Hres)
    as Hempty.
  unfold cache in Hempty. injection Hempty as Hcli _.
  rewrite setBreakpoints_result, Hpath, (truthy_Some p Hp). simpl.
  rewrite Hisurl. unfold by_client. rewrite Hcli, lookup_empty.
  destruct (isAbsolute (canonicalizeUrl p)); simpl; [done |].
  by destruct (negb _).
Qed.

End MoreSetBreakpoints.

Lemma setBreakpoints_keeps_other_fields_witness :
  let s := Reference.launched (Some "/home/user/proj") [] in
  let args := {| source := {| Source.name := Some "eval";
                              Source.path := Some "";
                              Source.sourceReference := Some 12%Z;
                              Source.origin := Some "eval code" |};
                 lines := [7%Z]; authoredPath := Some "a.ts" |} in
  Source.path (source (result (setBreakpoints args) s)) = Some "".
Proof.
  intros s args.
  destruct (setBreakpoints_keeps_other_fields s args) as (_ & _ & _ & _ & _ & H).
  apply H. reflexivity.
Defined.

Lemma setBreakpoints_idempotent_witness :
  let s0 := Reference.launched None [("/app/", "/home/user/proj")] in
  let s := after (scriptParsed "http://localhost/app/main.js") s0 in
  let args := {| source := {| Source.name := None;
                              Source.path := Some "/home/user/proj/main.js";
                              Source.sourceReference := None;
                              Source.origin := None |};
                 lines := [1%Z]; authoredPath := None |} in
  let args' := result (setBreakpoints args) s in
  Source.path (source args') = Some "http://localhost/app/main.js" ∧
  result (setBreakpoints args') (after (setBreakpoints args) s) = args'.
Proof.
  intros s0 s args args'. split; [vm_compute; reflexivity |].
  apply (setBreakpoints_idempotent s args).
  - vm_compute. reflexivity.
  - intros u _ Hu. vm_compute in Hu. injection Hu as <-.
    vm_compute. reflexivity.
Defined.

Lemma scriptParsed_then_setBreakpoints_witness :
  let s := Reference.launched (Some "/home/user/proj") [] in
  let args := {| source := {| Source.name := None;
                              Source.path := Some "/home/user\proj/lib/a.js";
                              Source.sourceReference := None;
                              Source.origin := None |};
                 lines := []; authoredPath := None |} in
  result (setBreakpoints args)
    (after (scriptParsed "http://localhost/lib/a.js?v=2") s)
  = set_source_path args "http://localhost/lib/a.js?v=2".
Proof.
  intros s args.
  apply (scriptParsed_then_setBreakpoints s _ "/home/user/proj/lib/a.js"
           "/home/user\proj/lib/a.js").
  - split; [vm_compute; reflexivity | discriminate].
  - split; vm_compute; reflexivity.
  - discriminate.
  - reflexivity.
  - discriminate.
  - vm_compute. reflexivity.
  - vm_compute. reflexivity.
Defined.

Lemma clearTargetContext_then_setBreakpoints_witness :
  let s0 := Reference.launched None [("/app/", "/home/user/proj")] in
  let s := after (scriptParsed "http://localhost/app/main.js") s0 in
  let args := {| source := {| Source.name := None;
                              Source.path := Some "/home/user/proj/main.js";
                              Source.sourceReference := None;
                              Source.origin := None |};
                 lines := []; authoredPath := None |} in
  result (setBreakpoints args) s
    = set_source_path args "http://localhost/app/main.js" ∧
  result (setBreakpoints args)
    (after (calls [ScriptParsed "eval://4"]) (after clearTargetContext s))
    = set_source_path args "/home/user/proj/main.js".
Proof.
  intros s0 s args. split; [vm_compute; reflexivity |].
  rewrite (clearTargetContext_then_setBreakpoints s [ScriptParsed "eval://4"]
             "/home/user/proj/main.js" args).
  - reflexivity.
  - repeat split.
  - reflexivity.
  - discriminate.
  - vm_compute. reflexivity.
Defined.

(** ** [scriptParsed] and [stackTraceResponse] *)

Section MoreScriptParsed.
Context {I : Imports}.

(** [resolve] reads the configuration and nothing else. *)
Lemma resolve_config (s s' : Session) (u : string) :
  config s' = config s → resolve (this s') u = resolve (this s) u.
Proof. unfold config, resolve. by intros [= -> ->]. Qed.

(** X5.  Reporting the same script twice in a row is harmless: the second
    [scriptParsed u] returns what the first returned and leaves the
    instance, cache included, exactly as the first left it. *)
Theorem scriptParsed_twice (s : Session) (u : string) :
  let s1 := after (scriptParsed u) s in
  result (scriptParsed u) s1 = result (scriptParsed u) s ∧
  this (after (scriptParsed u) s1) = this s1.
Proof.
  intros s1. subst s1. unfold result, after.
  destruct (resolves_or_not s u) as [[c Hc] | Hno].
  - rewrite (scriptParsed_resolved s u c Hc). simpl.
    rewrite (scriptParsed_resolved _ u c) by exact Hc. simpl.
    by rewrite !insert_insert_eq.
  - rewrite (scriptParsed_unresolved s u Hno). simpl.
    by rewrite (scriptParsed_unresolved _ u) by exact Hno.
Qed.

(** X6.  [scriptParsed] never turns a URL into the empty string: for a
    non-empty [scriptUrl] the result is non-empty, whether a resolver found
    a path or not. *)
Theorem scriptParsed_result_nonempty (s : Session) (u : string) :
  u ≠ "" → result (scriptParsed u) s ≠ "".
Proof.
  intros Hu. unfold result.
  destruct (resolves_or_not s u) as [[c Hc] | Hno].
  - rewrite (scriptParsed_resolved s u c Hc). simpl. apply Hc.
  - by rewrite (scriptParsed_unresolved s u Hno).
Qed.

(** X7.  A stack frame that names a script by the URL [scriptParsed] has
    just resolved is rewritten to the client path found then, whatever the
    webRoot resolver would say now: its path becomes that client path and
    its [sourceReference] and [origin] are cleared. *)
Theorem scriptParsed_then_stackTraceResponse
    (s : Session) (u c : string) (response : IStackTraceResponseBody)
    (i : nat) (frame : StackFrame.t) (src : Source.t) :
  resolves s u c → u ≠ "" →
  stackFrames response !! i = Some frame →
  StackFrame.source frame = Some src →
  Source.path src = Some u →
  stackFrames (result (stackTraceResponse response) (after (scriptParsed u) s))
    !! i
  = Some (StackFrame.with_source frame
            {| Source.name := Source.name src;
               Source.path := Some c;
               Source.sourceReference := None;
               Source.origin := None |}).
Proof.
  intros Hr Hu Hi Hsrc Hpath. unfold result.
  rewrite stackTraceResponse_eq. simpl. rewrite list_lookup_fmap, Hi. simpl.
  f_equal. unfold resolvedFrame. rewrite Hsrc, Hpath, (truthy_Some u Hu).
  unfold frameClientPath, by_target, after, js_or. simpl.
  rewrite (scriptParsed_resolved s u c Hr). simpl.
  rewrite lookup_insert_eq. destruct Hr as [_ Hc].
  rewrite (truthy_Some c Hc). cbv iota. by rewrite (truthy_Some c Hc).
Qed.

(** X8.  [stackTraceResponse] keeps the shape of the response: the same
    number of frames in the same order, each with its id, name, line and
    column, a source exactly where there was one, and that source under its
    old name.  Only [path], [sourceReference] and [origin] of a source can
    differ. *)
Theorem stackTraceResponse_keeps_frame_shape
    (s : Session) (response : IStackTraceResponseBody) :
  let frames' := stackFrames (result (stackTraceResponse response) s) in
  StackFrame.id <$> frames' = StackFrame.id <$> stackFrames response ∧
  StackFrame.name <$> frames' = StackFrame.name <$> stackFrames response ∧
  StackFrame.line <$> frames' = StackFrame.line <$> stackFrames response ∧
  StackFrame.column <$> frames'
    = StackFrame.column <$> stackFrames response ∧
  (λ f, Source.name <$> StackFrame.source f) <$> frames'
    = (λ f, Source.name <$> StackFrame.source f) <$> stackFrames response.
Proof.
  intros frames'. subst frames'. unfold result.
  rewrite stackTraceResponse_eq. simpl.
  rewrite <- !list_fmap_compose.
  repeat split; apply list_fmap_ext; intros _ frame _; simpl;
    unfold resolvedFrame;
    destruct (StackFrame.source frame) as [src|] eqn:Hsrc; try (by rewrite ?Hsrc);
    destruct (truthy (Source.path src)); try (by rewrite ?Hsrc);
    destruct (truthy (frameClientPath s _)); by rewrite ?Hsrc.
Qed.

End MoreScriptParsed.

Lemma scriptParsed_result_nonempty_witness :
  let s := Reference.launched (Some "/home/user/proj") [] in
  result (scriptParsed "http://localhost/") s ≠ "" ∧
  result (scriptParsed "http://localhost/a.js") s ≠ "".
Proof.
  intros s.
  split; apply (scriptParsed_result_nonempty s); discriminate.
Defined.

Lemma scriptParsed_then_stackTraceResponse_witness :
  let s := Reference.launched (Some "/elsewhere") [("/app/", "/home/user/proj")] in
  let src := {| Source.name := Some "main.js";
                Source.path := Some "http://localhost/app/main.js";
                Source.sourceReference := Some 5%Z;
                Source.origin := Some "remote" |} in
  let frame := {| StackFrame.id := 2; StackFrame.name := "g";
                  StackFrame.source := Some src;
                  StackFrame.line := 8; StackFrame.column := 1 |} in
  let other := {| StackFrame.id := 3; StackFrame.name := "h";
                  StackFrame.source := None;
                  StackFrame.line := 0; StackFrame.column := 0 |} in
  let response := {| stackFrames := [other; frame]; totalFrames := None |} in
  stackFrames (result (stackTraceResponse response)
                 (after (scriptParsed "http://localhost/app/main.js") s))
    !! 1%nat
  = Some (StackFrame.with_source frame
            {| Source.name := Some "main.js";
               Source.path := Some "/home/user/proj/main.js";
               Source.sourceReference := None;
               Source.origin := None |}).
Proof.
  intros s src frame other response.
  apply (scriptParsed_then_stackTraceResponse s
           "http://localhost/app/main.js" "/home/user/proj/main.js"
           response 1 frame src).
  - split; [vm_compute; reflexivity | discriminate].
  - discriminate.
  - reflexivity.
  - reflexivity.
  - reflexivity.
Defined.

(** ** What holds along any sequence of calls *)

Section Sequences.
Context {I : Imports}.

(** What one call does to the configuration. *)
Lemma call_config (c : Call) (s : Session) :
  config (after (call c) s) =
    match c with
    | Launch args | Attach args =>
      (webRoot args, default [] (pathMapping args))
    | _ => config s
    end.
Proof.
  destruct c as [args | args | args | | u | r | c | u]; simpl;
    rewrite ?after_discard; try reflexivity.
  - unfold config. by rewrite setBreakpoints_this.
  - unfold after. destruct (resolves_or_not s u) as [[c Hc] | Hno].
    + by rewrite (scriptParsed_resolved s u c Hc).
    + by rewrite (scriptParsed_unresolved s u Hno).
  - unfold after. by rewrite stackTraceResponse_eq.
Qed.

Lemma scriptParsed_config (s s' : Session) (u : string) :
  config s' = config s →
  result (scriptParsed u) s' = result (scriptParsed u) s.
Proof.
  intros Hcfg. unfold result.
  destruct (resolves_or_not s u) as [[c Hc] | Hno].
  - rewrite (scriptParsed_resolved s u c Hc).
    rewrite (scriptParsed_resolved s' u c); [done |].
    destruct Hc as [Hr Hc]. split; [| done].
    by rewrite (resolve_config s s' u Hcfg).
  - rewrite (scriptParsed_unresolved s u Hno).
    rewrite (scriptParsed_unresolved s' u); [done |].
    by rewrite (resolve_config s s' u Hcfg).
Qed.

(** X9.  Only [launch] and [attach] touch the configuration: along any
    sequence of the other calls, [clearTargetContext] included, [_webRoot]
    and [_pathMapping] stay as they were, and therefore [scriptParsed]
    returns for every URL what it would have returned before the
    sequence. *)
Theorem config_changed_only_by_launch_attach (s : Session) (l : list Call) :
  no_reconfiguration l →
  config (after (calls l) s) = config s ∧
  ∀ u, result (scriptParsed u) (after (calls l) s)
       = result (scriptParsed u) s.
Proof.
  intros Hl.
  assert (Hcfg : config (after (calls l) s) = config s).
  { revert s. induction Hl as [| c l Hc Hl IH]; intros s; [done |].
    rewrite calls_cons, IH, call_config. by destruct c. }
  split; [done |]. intros u. by apply scriptParsed_config.
Qed.

Lemma setBreakpoints_logged (s : Session) (args : ISetBreakpointsArgs) :
  ∃ extra, logged (after (setBreakpoints args) s) = (logged s ++ extra)%list
           ∧ (length extra ≤ 1)%nat.
Proof.
  unfold setBreakpoints, getTargetPathFromClientPath. unfold_M. simpl.
  destruct (truthy (Source.path (source args))); simpl.
  - destruct (isURL _); simpl;
      [eexists; split; [reflexivity | simpl; lia] |].
    destruct (truthy _); simpl; eexists; (split; [reflexivity | simpl; lia]).
  - exists []. split; [by rewrite app_nil_r | simpl; lia].
Qed.

(** The lines one call adds to the log. *)
Lemma call_logged (c : Call) (s : Session) :
  ∃ extra, logged (after (call c) s) = (logged s ++ extra)%list
           ∧ (length extra ≤ if may_log c then 1 else 0)%nat.
Proof.
  destruct c as [args | args | args | | u | r | c | u]; simpl;
    rewrite ?after_discard;
    try (exists []; split; [by rewrite app_nil_r | simpl; lia]).
  - apply setBreakpoints_logged.
  - unfold after. destruct (resolves_or_not s u) as [[c Hc] | Hno].
    + rewrite (scriptParsed_resolved s u c Hc). simpl.
      eexists. split; [reflexivity | simpl; lia].
    + rewrite (scriptParsed_unresolved s u Hno). simpl.
      eexists. split; [reflexivity |]. destruct (startsWith _ _); simpl; lia.
  - unfold after. rewrite stackTraceResponse_eq. simpl.
    exists []. split; [by rewrite app_nil_r | simpl; lia].
Qed.

(** X10.  The log only grows: after any sequence of calls the lines logged
    before are still there, in order, followed by at most one new line per
    [setBreakpoints] or [scriptParsed] call; [launch], [attach],
    [clearTargetContext], [stackTraceResponse] and the two getters never
    log. *)
Theorem log_append_only (s : Session) (l : list Call) :
  ∃ extra, logged (after (calls l) s) = (logged s ++ extra)%list
           ∧ (length extra ≤ length (filter (λ c, may_log c = true) l))%nat.
Proof.
  revert s. induction l as [| c l IH]; intros s.
  - exists []. split; [by rewrite app_nil_r | simpl; lia].
  - rewrite calls_cons.
    destruct (call_logged c s) as (e1 & He1 & Hn1).
    destruct (IH (after (call c) s)) as (e2 & He2 & Hn2).
    exists (e1 ++ e2)%list. split.
    + by rewrite He2, He1, app_assoc.
    + rewrite length_app, filter_cons.
      destruct (decide (may_log c = true)) as [Hm | Hm].
      * rewrite Hm in Hn1. simpl. lia.
      * destruct (may_log c); [done |]. simpl in Hn1. lia.
Qed.

End Sequences.

Lemma config_changed_only_by_launch_attach_witness :
  let s := Reference.launched (Some "/home/user/proj") [] in
  let l := [ScriptParsed "http://localhost/a.js";
            ClearTargetContext;
            GetClientPathFromTargetPath "http://localhost/a.js"] in
  config (after (calls l) s) = (Some "/home/user/proj", []) ∧
  result (scriptParsed "http://localhost/b.js") (after (calls l) s)
    = "/home/user/proj/b.js".
Proof.
  intros s l.
  destruct (config_changed_only_by_launch_attach s l) as [Hcfg Hres].
  - repeat constructor.
  - split; [exact Hcfg |]. rewrite Hres. vm_compute. reflexivity.
Defined.

(** ** Invariants of the cache *)

Section CacheInvariants.
Context {I : Imports}.

Lemma by_target_cache (s : Session) (u : string) :
  by_target s u = (cache s).2 !! u.
Proof. reflexivity. Qed.

Lemma by_client_cache (s : Session) (c : string) :
  by_client s c = (cache s).1 !! c.
Proof. reflexivity. Qed.

Lemma call_keeps_paths_nonempty (c : Call) (s : Session) :
  (∀ u, by_target s u ≠ Some "") ∧ by_client s "" = None →
  (∀ u, by_target (after (call c) s) u ≠ Some "")
  ∧ by_client (after (call c) s) "" = None.
Proof.
  setoid_rewrite by_target_cache. rewrite !by_client_cache, call_cache.
  intros [Ht Hc].
  destruct c as [| | | | u0 | | |]; try (by split).
  destruct (truthy (resolve (this s) u0)) eqn:Hr; [| done].
  apply truthy_str in Hr as [_ Hne]. simpl. split.
  - intros u. destruct (decide (u0 = u)) as [<- | Hu].
    + rewrite lookup_insert_eq. by intros [= ?].
    + rewrite lookup_insert_ne by done. apply Ht.
  - by rewrite lookup_insert_ne.
Qed.

Lemma calls_keep_paths_nonempty (l : list Call) (s : Session) :
  (∀ u, by_target s u ≠ Some "") ∧ by_client s "" = None →
  (∀ u, by_target (after (calls l) s) u ≠ Some "")
  ∧ by_client (after (calls l) s) "" = None.
Proof.
  revert s. induction l as [| c l IH]; intros s Hs; [done |].
  rewrite calls_cons. by apply IH, call_keeps_paths_nonempty.
Qed.

(** X11.  The empty string is never cached as a client path: on an instance
    that started fresh, after any sequence of calls,
    [getClientPathFromTargetPath] never answers with the empty string and
    the client-to-target map has no entry under it.  A cache hit in
    [stackTraceResponse] is therefore always a usable path. *)
Theorem cached_client_paths_nonempty (l : list Call) :
  let s := after (calls l) new_Session in
  (∀ u, result (getClientPathFromTargetPath u) s ≠ Some "") ∧
  by_client s "" = None ∧
  (∀ u, is_Some (by_target s u) → truthy (by_target s u) = true).
Proof.
  intros s.
  assert (Hinv : (∀ u, by_target s u ≠ Some "") ∧ by_client s "" = None).
  { apply calls_keep_paths_nonempty. split; [intros u |];
      unfold by_target, by_client; simpl; by rewrite lookup_empty. }
  destruct Hinv as [Ht Hc]. split; [exact Ht |]. split; [exact Hc |].
  intros u [c Hu]. rewrite Hu. apply truthy_Some. intros ->. by eapply Ht.
Qed.

Lemma cache_agrees_empty (s : Session) : cache s = (∅, ∅) → cache_agrees s.
Proof.
  unfold cache, cache_agrees, by_target, by_client. intros [= -> ->].
  split; intros ? ?; by rewrite lookup_empty.
Qed.

Lemma cache_agrees_same (s s' : Session) :
  cache s' = cache s → config s' = config s →
  cache_agrees s → cache_agrees s'.
Proof.
  intros Hcache Hcfg [Ht Hc]. unfold cache_agrees, resolves.
  setoid_rewrite by_target_cache. setoid_rewrite by_client_cache.
  rewrite Hcache. setoid_rewrite (resolve_config s s' _ Hcfg).
  split; [apply Ht | apply Hc].
Qed.

Lemma cache_agrees_insert (s s' : Session) (c u : string) :
  cache s' = (<[c := u]> (cache s).1, <[u := c]> (cache s).2) →
  config s' = config s → resolves s u c →
  cache_agrees s → cache_agrees s'.
Proof.
  intros Hcache Hcfg Hr [Ht Hc]. unfold cache_agrees, resolves.
  setoid_rewrite by_target_cache. setoid_rewrite by_client_cache.
  rewrite Hcache. setoid_rewrite (resolve_config s s' _ Hcfg). simpl. split.
  - intros u0 c0. destruct (decide (u = u0)) as [<- | Hu].
    + rewrite lookup_insert_eq. by intros [= <-].
    + rewrite lookup_insert_ne by done. apply Ht.
  - intros c0 u0. destruct (decide (c = c0)) as [<- | Hne].
    + rewrite lookup_insert_eq. intros [= <-]. by rewrite lookup_insert_eq.
    + rewrite lookup_insert_ne by done. intros Hc0.
      pose proof (Hc c0 u0 Hc0) as Hu0.
      destruct (decide (u = u0)) as [<- | Hu]; [| by rewrite lookup_insert_ne].
      destruct (Ht u c0 Hu0) as [Hr0 _]. destruct Hr as [Hr _].
      congruence.
Qed.

Lemma call_cache_agrees (c : Call) (s : Session) :
  match c with Launch _ | Attach _ => False | _ => True end →
  cache_agrees s → cache_agrees (after (call c) s).
Proof.
  intros Hc Hs.
  pose proof (call_cache c s) as Hcache.
  pose proof (call_config c s) as Hcfg.
  destruct c as [args | args | args | | u | r | c | u]; try done;
    try (by apply (cache_agrees_same s)); try (by apply cache_agrees_empty).
  destruct (truthy (resolve (this s) u)) eqn:Hr.
  - apply truthy_str in Hr. by apply (cache_agrees_insert s _ _ _ Hcache).
  - by apply (cache_agrees_same s).
Qed.

(** X12.  Under one configuration the client-to-URL direction is never
    stale.  Starting from an empty cache and as long as neither [launch] nor
    [attach] is called (the resolvers being functions of the configuration
    and the URL), every URL is cached with the client path [scriptParsed]
    would find for it now, and a client path cached with URL [u] is the
    path cached for [u]: whatever [getTargetPathFromClientPath] finds for
    an absolute path, [getClientPathFromTargetPath] maps back to the
    canonical form of that path. *)
Theorem cache_agrees_under_one_configuration (s : Session) (l : list Call) :
  cache s = (∅, ∅) → no_reconfiguration l →
  let s' := after (calls l) s in
  cache_agrees s' ∧
  ∀ c u, isAbsolute c = true →
    result (getTargetPathFromClientPath c) s' = Some u →
    result (getClientPathFromTargetPath u) s' = Some (canonicalizeUrl c).
Proof.
  intros Hempty Hl s'.
  assert (Hagree : cache_agrees s').
  { subst s'. apply cache_agrees_empty in Hempty. revert s Hempty.
    induction Hl as [| c l Hc Hl IH]; intros s Hs; [done |].
    rewrite calls_cons. by apply IH, call_cache_agrees. }
  split; [done |]. intros c u Habs. unfold result.
  rewrite getTargetPathFromClientPath_eq, getClientPathFromTargetPath_eq.
  simpl. rewrite Habs. apply Hagree.
Qed.

Lemma call_keeps_entries (c : Call) (s : Session) (k : string) :
  c ≠ ClearTargetContext →
  (is_Some (by_target s k) → is_Some (by_target (after (call c) s) k)) ∧
  (is_Some (by_client s k) → is_Some (by_client (after (call c) s) k)).
Proof.
  intros Hc. rewrite !by_target_cache, !by_client_cache, call_cache.
  destruct c as [| | | | u | | |]; try done.
  destruct (truthy (resolve (this s) u)); [| done]. simpl.
  split; intros Hk; apply lookup_insert_is_Some'; by right.
Qed.

(** X13.  Nothing but [clearTargetContext] removes a cache entry: along any
    sequence of calls without it, reconfigurations included, a URL that had
    a cached client path still has one and a client path that had a cached
    URL still has one (possibly a newer one). *)
Theorem cache_entries_persist_until_clear
    (s : Session) (l : list Call) (k : string) :
  no_clear l →
  (is_Some (by_target s k) → is_Some (by_target (after (calls l) s) k)) ∧
  (is_Some (by_client s k) → is_Some (by_client (after (calls l) s) k)).
Proof.
  intros Hl. revert s. induction Hl as [| c l Hc Hl IH]; intros s; [done |].
  rewrite calls_cons.
  destruct (call_keeps_entries c s k Hc) as [Ht Hcl].
  destruct (IH (after (call c) s)) as [Ht' Hcl']. split; auto.
Qed.

End CacheInvariants.

Lemma cached_client_paths_nonempty_witness :
  let l := [Launch {| webRoot := Some "/home/user/proj"; pathMapping := None |};
            ScriptParsed "http://localhost/main.js";
            ScriptParsed "http://localhost/"] in
  let s := after (calls l) new_Session in
  by_target s "http://localhost/main.js" = Some "/home/user/proj/main.js" ∧
  truthy (by_target s "http://localhost/main.js") = true ∧
  by_target s "http://localhost/" = None.
Proof.
  intros l s.
  destruct (cached_client_paths_nonempty l) as (_ & _ & Htruthy).
  split; [vm_compute; reflexivity |].
  split; [| vm_compute; reflexivity].
  apply Htruthy. vm_compute. eauto.
Defined.

(** Two URLs of one file under one configuration: the client path is cached
    with the newer URL, and that URL is cached with the client path. *)
Lemma cache_agrees_under_one_configuration_witness :
  let s := Reference.launched (Some "/home/user/proj") [] in
  let l := [ScriptParsed "http://localhost/main.js";
            ScriptParsed "http://127.0.0.1/main.js"] in
  let s' := after (calls l) s in
  result (getTargetPathFromClientPath "/home/user\proj/main.js") s'
    = Some "http://127.0.0.1/main.js" ∧
  result (getClientPathFromTargetPath "http://127.0.0.1/main.js") s'
    = Some "/home/user/proj/main.js".
Proof.
  intros s l s'.
  assert (Hfound :
    result (getTargetPathFromClientPath "/home/user\proj/main.js") s'
      = Some "http://127.0.0.1/main.js") by (vm_compute; reflexivity).
  split; [exact Hfound |].
  destruct (cache_agrees_under_one_configuration s l) as [_ Hback].
  - reflexivity.
  - repeat constructor.
  - apply (Hback "/home/user\proj/main.js" "http://127.0.0.1/main.js");
      [vm_compute; reflexivity | exact Hfound].
Defined.

(** An entry cached under one webRoot is still there after a relaunch under
    another and further traffic. *)
Lemma cache_entries_persist_until_clear_witness :
  let s0 := Reference.launched (Some "/home/user/old") [] in
  let s := after (scriptParsed "http://localhost/main.js") s0 in
  let l := [Launch {| webRoot := Some "/home/user/new"; pathMapping := None |};
            ScriptParsed "http://localhost/other.js";
            GetTargetPathFromClientPath "/home/user/old/main.js"] in
  is_Some (by_target (after (calls l) s) "http://localhost/main.js").
Proof.
  intros s0 s l.
  destruct (cache_entries_persist_until_clear s l "http://localhost/main.js")
    as [Htarget _].
  - repeat constructor; discriminate.
  - apply Htarget. vm_compute. eauto.
Defined.
